(** * boost::locking_queue: a mutex-protected FIFO queue adapter

    Shallow embedding of [src/boost/locking_queue.hpp].

    Every method body of [locking_queue] runs with [mutex] held from its first
    statement to its return, so a method is one atomic transition on the
    underlying container.  The only place where the lock is given up inside a
    body is a wait on [non_empty_cond] in [pop]; what the other threads did to
    the container in the meantime, and (for [timed_wait]) whether the wait ran
    into its time limit, is supplied to the model as a list of wake-ups. *)

From Stdlib Require Import List ZArith Bool Lia.
Import ListNotations.

Set Implicit Arguments.

(** ** The underlying container, [std::queue<T>]

    The default [Container].  [front] and [pop] have the precondition that the
    queue is not empty; calling them on an empty queue is undefined, which the
    model reports as [None]. *)
Module StdQueue.
Section Ops.
Variable T : Type.

Definition t := list T.

Definition empty (c : t) : bool :=
  match c with
  | [] => true
  | _ :: _ => false
  end.

Definition size (c : t) : nat := length c.

Definition front (c : t) : option T :=
  match c with
  | [] => None
  | x :: _ => Some x
  end.

Definition pop (c : t) : option t :=
  match c with
  | [] => None
  | _ :: c' => Some c'
  end.

Definition push (x : T) (c : t) : t := c ++ [x].
End Ops.
End StdQueue.

Section LockingQueue.
Variable T : Type.

(** [container_type]; [value_type] is [T] and [size_type] is [nat]. *)
Definition container_type := StdQueue.t T.

(** The data members.  [mutex] and [non_empty_cond] hold no data of their
    own: the mutex shows up as the atomicity of the method bodies, the
    condition variable as the wake-ups consumed by [pop]. *)
Record locking_queue : Type := LockingQueue { container : container_type }.

(** [class queue_empty {}]: the one exception type of the class. *)
Inductive exception : Type := queue_empty.

(** How a call of a method ends. *)
Inductive outcome (A : Type) : Type :=
| Returned (a : A) (q : locking_queue)
    (* normal return of [a], the queue left as [q] *)
| Thrown (e : exception) (q : locking_queue)
    (* left by [throw], the queue left as [q] *)
| Undefined
    (* a precondition of the underlying container was violated *)
| Suspended (q : locking_queue).
    (* still inside a wait on [non_empty_cond]: no wake-up is left *)

Arguments Undefined {A}.
Arguments Thrown {A} e q.
Arguments Suspended {A} q.

(** Method bodies are state transformers that end in an [outcome]. *)
Definition M (A : Type) : Type := locking_queue -> outcome A.

Definition ret {A : Type} (a : A) : M A := fun q => Returned a q.

Definition bind {A B : Type} (m : M A) (k : A -> M B) : M B :=
  fun q =>
    match m q with
    | Returned a q' => k a q'
    | Thrown e q' => Thrown e q'
    | Undefined => Undefined
    | Suspended q' => Suspended q'
    end.

(** [locking_queue() : container(), mutex(), non_empty_cond() {}] *)
Definition locking_queue_new : locking_queue := LockingQueue [].

(** [explicit locking_queue(const container_type& other) : container(other), ...] *)
Definition locking_queue_copy (other : container_type) : locking_queue :=
  LockingQueue other.

(** [bool empty() const] *)
Definition empty : M bool :=
  fun q => Returned (StdQueue.empty (container q)) q.

(** [size_type size() const] *)
Definition size : M nat :=
  fun q => Returned (StdQueue.size (container q)) q.

(** [void push(const value_type& element)].  [notify_one] does not touch the
    container; its effect is a wake-up in some other thread's [pop]. *)
Definition push (element : T) : M unit :=
  fun q => Returned tt (LockingQueue (StdQueue.push element (container q))).

(** *** Waiting on [non_empty_cond] *)

(** An operation another thread completed on the queue while the waiting
    thread had released [mutex]. *)
Inductive action : Type :=
| OtherPush (x : T)
| OtherPop.

Definition perform (c : container_type) (a : action) : container_type :=
  match a with
  | OtherPush x => StdQueue.push x c
  | OtherPop => tl c
  end.

(** One return from [wait] or [timed_wait]: [in_time] is the value
    [timed_wait] returns ([false] when the time limit was reached; [wait]
    returns nothing, so it is not looked at there), [meanwhile] is what the
    other threads did between the release of the lock and its
    re-acquisition.  A wake-up caused by [notify_one] and a spurious one
    look the same to the waiting thread. *)
Record wakeup : Type := Wakeup { in_time : bool; meanwhile : list action }.

Definition others (ws : list wakeup) (c : container_type) : container_type :=
  fold_left (fun c w => fold_left perform (meanwhile w) c) ws c.

(** How the [if (block) ... else ...] statement of [pop] is left. *)
Inductive guard_exit : Type :=
| Proceed (c : container_type)      (* falls through to the removal *)
| Throw (c : container_type)        (* [throw queue_empty()] *)
| Waiting (c : container_type).     (* suspended in the wait for good *)

(** The loop of the [block] branch, lines 116-125:
<<
    while (!container.empty()) {
        if (timeout > 0) {
            if (!non_empty_cond.timed_wait(lock, seconds(timeout)))
                throw queue_empty();
        } else {
            non_empty_cond.wait(lock);
        }
    }
>>
    Every [timed_wait] is given the whole [timeout] again. *)
Fixpoint wait_loop (timeout : Z) (ws : list wakeup) (c : container_type)
  : guard_exit :=
  if negb (StdQueue.empty c) then
    if (timeout >? 0)%Z then
      match ws with
      | [] => Waiting c
      | w :: ws' =>
          let c' := fold_left perform (meanwhile w) c in
          if negb (in_time w) then Throw c' else wait_loop timeout ws' c'
      end
    else
      match ws with
      | [] => Waiting c
      | w :: ws' =>
          let c' := fold_left perform (meanwhile w) c in
          wait_loop timeout ws' c'
      end
  else Proceed c.

(** Lines 115-130. *)
Definition pop_guard (block : bool) (timeout : Z) (ws : list wakeup)
           (c : container_type) : guard_exit :=
  if block then wait_loop timeout ws c
  else if StdQueue.empty c then Throw c else Proceed c.

(** Lines 132-135:
<<
    value_type element(container.front());
    container.pop();
    return element;
>> *)
Definition remove_front (c : container_type) : outcome T :=
  match StdQueue.front c with
  | None => Undefined
  | Some element =>
      match StdQueue.pop c with
      | None => Undefined
      | Some c' => Returned element (LockingQueue c')
      end
  end.

(** [value_type pop(bool block = false, int timeout = 0)] *)
Definition pop (block : bool) (timeout : Z) (ws : list wakeup) : M T :=
  fun q =>
    match pop_guard block timeout ws (container q) with
    | Proceed c => remove_front c
    | Throw c => Thrown queue_empty (LockingQueue c)
    | Waiting c => Suspended (LockingQueue c)
    end.

(** [pop()] with its default arguments. *)
Definition pop_default : M T := pop false 0%Z [].

(** *** Sequences of calls *)

Fixpoint push_all (vs : list T) : M unit :=
  match vs with
  | [] => ret tt
  | v :: vs' => bind (push v) (fun _ => push_all vs')
  end.

Fixpoint pop_many (n : nat) : M (list T) :=
  match n with
  | O => ret []
  | S n' =>
      bind pop_default (fun v =>
      bind (pop_many n') (fun vs => ret (v :: vs)))
  end.

(** [empty()] followed by [size()]. *)
Definition observe : M (bool * nat) :=
  bind empty (fun e => bind size (fun s => ret (e, s))).

(** A call of [push] or of [pop()] by the thread under study, and a
    straight-line sequence of such calls: the values the [pop]s returned are
    collected in order, and an exception ends the sequence. *)
Inductive call : Type :=
| CallPush (v : T)
| CallPop.

Fixpoint run (cs : list call) : M (list T) :=
  match cs with
  | [] => ret []
  | CallPush v :: cs' => bind (push v) (fun _ => run cs')
  | CallPop :: cs' =>
      bind pop_default (fun x =>
      bind (run cs') (fun xs => ret (x :: xs)))
  end.

(** The arguments of the [push] calls of a sequence, in order. *)
Fixpoint pushed (cs : list call) : list T :=
  match cs with
  | [] => []
  | CallPush v :: cs' => v :: pushed cs'
  | CallPop :: cs' => pushed cs'
  end.

(** *** What the other threads did during the waits *)

Definition is_push (a : action) : bool :=
  match a with
  | OtherPush _ => true
  | OtherPop => false
  end.

(** The other threads only pushed. *)
Definition only_pushes (ws : list wakeup) : bool :=
  forallb (fun w => forallb is_push (meanwhile w)) ws.

(** No wait of the call can report that its time limit was reached:
    [timeout <= 0] selects [wait], or every [timed_wait] returns [true]. *)
Definition no_expiry (timeout : Z) (ws : list wakeup) : Prop :=
  (timeout <= 0)%Z \/ forallb in_time ws = true.

(** The container is non-empty at every test of the loop condition. *)
Definition never_drained (ws : list wakeup) (c : container_type) : Prop :=
  forall n, others (firstn n ws) c <> [].

(** The values the other threads pushed, in order. *)
Definition pushed_by (ws : list wakeup) : list T :=
  flat_map (fun w =>
    flat_map (fun a => match a with OtherPush x => [x] | OtherPop => [] end)
             (meanwhile w)) ws.
End LockingQueue.

Arguments Undefined {T A}.
Arguments Thrown {T A} e q.
Arguments Suspended {T A} q.
Arguments locking_queue_new {T}.
Arguments OtherPop {T}.
Arguments pop_default {T}.
Arguments empty {T}.
Arguments size {T}.
Arguments observe {T}.
Arguments CallPop {T}.


(** * Properties *)

Section Properties.
Variable T : Type.

Implicit Types (c rest : container_type T) (q : locking_queue T).
Implicit Types (ws : list (wakeup T)) (vs : list T) (timeout : Z).

(** ** The container operations *)

Lemma empty_true_iff c : StdQueue.empty c = true <-> c = [].
Proof. destruct c; simpl; split; congruence. Qed.

Lemma empty_size c : StdQueue.empty c = true <-> StdQueue.size c = 0.
Proof. destruct c; simpl; split; congruence. Qed.

Lemma remove_front_cons (x : T) c :
  remove_front (x :: c) = Returned x (LockingQueue c).
Proof. reflexivity. Qed.

Lemma remove_front_nil : remove_front (@nil T) = Undefined.
Proof. reflexivity. Qed.

Lemma remove_front_returned c (v : T) q' :
  remove_front c = Returned v q' -> c = v :: container q'.
Proof.
  destruct c as [|x c]; simpl; [discriminate|].
  intros [= <- <-]. reflexivity.
Qed.

(** ** The wait loop *)

Lemma others_nil c : others [] c = c.
Proof. reflexivity. Qed.

Lemma others_cons (w : wakeup T) ws c :
  others (w :: ws) c = others ws (fold_left (@perform T) (meanwhile w) c).
Proof. reflexivity. Qed.

Lemma others_quiet ws c :
  Forall (fun w => meanwhile w = []) ws -> others ws c = c.
Proof.
  induction 1 as [|w ws Hw _ IH]; [reflexivity|].
  rewrite others_cons, Hw. exact IH.
Qed.

Lemma wait_loop_nil timeout ws : wait_loop timeout ws (@nil T) = Proceed [].
Proof. destruct ws; reflexivity. Qed.

(** The loop is left by its condition only with an empty container. *)
Lemma wait_loop_proceed timeout ws c c' :
  wait_loop timeout ws c = Proceed c' -> c' = [].
Proof.
  revert c. induction ws as [|w ws IH]; intros [|x c]; simpl.
  - intros [= <-]. reflexivity.
  - destruct (timeout >? 0)%Z; discriminate.
  - intros [= <-]. reflexivity.
  - destruct (timeout >? 0)%Z; [destruct (in_time w); simpl|];
      try discriminate; apply IH.
Qed.

(** Whatever way the loop is left, the container it leaves is the one the
    other threads made out of the initial one. *)
Lemma wait_loop_others timeout ws c :
  exists n,
    match wait_loop timeout ws c with
    | Proceed c' | Throw c' | Waiting c' => c' = others (firstn n ws) c
    end.
Proof.
  revert c. induction ws as [|w ws IH]; intros c.
  - exists 0. destruct c; simpl; [|destruct (timeout >? 0)%Z]; reflexivity.
  - destruct c as [|x c]; [exists 0; reflexivity|].
    set (c' := fold_left (@perform T) (meanwhile w) (x :: c)).
    destruct (IH c') as [n Hn].
    simpl. fold c'.
    destruct (timeout >? 0)%Z; [destruct (in_time w); simpl|].
    + exists (S n). exact Hn.
    + exists 1. reflexivity.
    + exists (S n). exact Hn.
Qed.

Lemma pop_guard_others block timeout ws c :
  exists n,
    match pop_guard block timeout ws c with
    | Proceed c' | Throw c' | Waiting c' => c' = others (firstn n ws) c
    end.
Proof.
  destruct block; simpl; [apply wait_loop_others|].
  exists 0. destruct (StdQueue.empty c); reflexivity.
Qed.

(** With [block] set the removal is reached only on an empty container, so
    no call returns an element. *)
Lemma pop_blocking_not_returned timeout ws q (v : T) q' :
  pop true timeout ws q <> Returned v q'.
Proof.
  unfold pop, pop_guard.
  destruct (wait_loop timeout ws (container q)) as [c'| |] eqn:E;
    try discriminate.
  apply wait_loop_proceed in E. subst c'. discriminate.
Qed.

(** ** Sequences of calls *)

Lemma push_all_appends vs q :
  push_all vs q = Returned tt (LockingQueue (container q ++ vs)).
Proof.
  revert q. induction vs as [|v vs IH]; intros [c]; simpl.
  - unfold ret. now rewrite app_nil_r.
  - unfold bind, push. rewrite IH. simpl. unfold StdQueue.push.
    now rewrite <- app_assoc.
Qed.

Lemma pop_many_prefix vs rest :
  pop_many (length vs) (LockingQueue (vs ++ rest))
  = Returned vs (LockingQueue rest).
Proof.
  induction vs as [|v vs IH]; simpl; [reflexivity|].
  unfold bind at 1. unfold pop_default, pop. simpl.
  unfold bind. rewrite IH. reflexivity.
Qed.
(** Pops of other threads take elements off the front. *)
Lemma perform_pops (n : nat) c :
  fold_left (@perform T) (repeat OtherPop n) c = skipn n c.
Proof.
  revert c. induction n as [|n IH]; intros c; [reflexivity|].
  simpl. rewrite IH. destruct c; [now rewrite skipn_nil|reflexivity].
Qed.
End Properties.

(** * The claims of the specification *)

Section Claims.
Variable T : Type.

Implicit Types (c rest : container_type T) (q : locking_queue T).
Implicit Types (ws : list (wakeup T)) (vs : list T) (timeout : Z).

(** C1 (the code departs from it).  The claim: a blocking [pop] re-checks
    emptiness after every wake-up and reaches the removal only with a
    non-empty queue.  The loop condition is [!container.empty()], so on an
    empty queue the loop body is never entered, whatever the timeout and
    whatever wake-ups are pending: [front()] and [pop()] are run on the
    empty container, which is undefined. *)
Theorem pop_blocking_removal_on_empty timeout ws :
  pop true timeout ws (@locking_queue_new T) = Undefined.
Proof.
  unfold pop, pop_guard, locking_queue_new. simpl.
  rewrite wait_loop_nil. reflexivity.
Qed.

(** C2 (the code departs from it).  The claim: with [block = true] and
    [timeout <= 0] the call waits until the queue is non-empty and then
    returns the head.  On a queue that holds an element the call waits
    although the head is there, and stays in the wait through any number of
    wake-ups during which nobody else touched the queue; this holds for
    [timeout = 0] and for a negative one. *)
Theorem pop_blocking_indefinite_waits_on_nonempty (x : T) c (n : nat) :
  pop true 0 (repeat (Wakeup true []) n) (LockingQueue (x :: c))
    = Suspended (LockingQueue (x :: c))
  /\ pop true (-1) (repeat (Wakeup true []) n) (LockingQueue (x :: c))
    = Suspended (LockingQueue (x :: c)).
Proof.
  unfold pop, pop_guard. simpl container.
  split; induction n as [|n IH]; simpl; auto.
Qed.

(** C3 (the code departs from it).  The claim: with [block = true] and
    [timeout > 0] the call returns the head once the queue is non-empty and
    fails with [queue_empty] only if the queue is still empty when the time
    is up.  With an element in the queue the call enters [timed_wait]; when
    that runs into the time limit it throws [queue_empty] with the element
    still queued, and when it is woken in time it waits again instead of
    returning the head.  On an empty queue it does not wait at all. *)
Theorem pop_blocking_timed_fails_on_nonempty (x : T) c ws :
  pop true 5 [Wakeup false []] (LockingQueue (x :: c))
    = Thrown queue_empty (LockingQueue (x :: c))
  /\ pop true 5 [Wakeup true []] (LockingQueue (x :: c))
    = Suspended (LockingQueue (x :: c))
  /\ pop true 5 ws (LockingQueue []) = Undefined.
Proof.
  repeat split.
  unfold pop, pop_guard. simpl container.
  rewrite wait_loop_nil. reflexivity.
Qed.

(** C4.  A [pop] with [block = false] on an empty queue throws
    [queue_empty] at once, for every [timeout] and without consuming any
    wake-up; on a non-empty queue it removes the head and returns it. *)
Theorem pop_nonblocking timeout ws :
  pop false timeout ws (@locking_queue_new T)
    = Thrown queue_empty locking_queue_new
  /\ forall (x : T) c,
      pop false timeout ws (LockingQueue (x :: c))
      = Returned x (LockingQueue c).
Proof. split; reflexivity. Qed.

(** C5.  FIFO order: pushing [v1 ... vn] into a new queue and then calling
    the non-blocking [pop] [n] times returns [v1 ... vn] in this order. *)
Theorem fifo_order vs :
  bind (push_all vs) (fun _ => pop_many (length vs)) locking_queue_new
  = Returned vs locking_queue_new.
Proof.
  unfold bind. rewrite push_all_appends. simpl.
  rewrite <- (app_nil_r vs) at 2. apply pop_many_prefix.
Qed.

(** The calls that do return or throw.  A [pop] that returns has removed
    exactly the head of the queue as the other threads left it, and returns
    that head; a [pop] that throws
    throws [queue_empty] and has not changed the queue itself: it leaves
    what the other threads made of it.  When no other thread touched the
    queue during the call, the queue before the call is the returned
    element followed by the queue after it, and a throwing call leaves the
    queue as it was. *)
Theorem pop_single_removal block timeout ws q :
  (forall v q', pop block timeout ws q = Returned v q' ->
     exists n, others (firstn n ws) (container q) = v :: container q')
  /\ (forall e q', pop block timeout ws q = Thrown e q' ->
     e = queue_empty
     /\ exists n, others (firstn n ws) (container q) = container q')
  /\ (Forall (fun w => meanwhile w = []) ws ->
      (forall v q', pop block timeout ws q = Returned v q' ->
         container q = v :: container q')
      /\ (forall e q', pop block timeout ws q = Thrown e q' -> q' = q)).
Proof.
  assert (R : forall v q', pop block timeout ws q = Returned v q' ->
     exists n, others (firstn n ws) (container q) = v :: container q').
  { intros v q'. unfold pop.
    destruct (pop_guard_others block timeout ws (container q)) as [n Hn].
    destruct (pop_guard block timeout ws (container q)) as [c'|c'|c'];
      try discriminate.
    intros E. apply remove_front_returned in E.
    exists n. congruence. }
  assert (F : forall e q', pop block timeout ws q = Thrown e q' ->
     e = queue_empty
     /\ exists n, others (firstn n ws) (container q) = container q').
  { intros e q'. unfold pop.
    destruct (pop_guard_others block timeout ws (container q)) as [n Hn].
    destruct (pop_guard block timeout ws (container q)) as [c'|c'|c'];
      try discriminate.
    - destruct c'; discriminate.
    - intros [= <- <-]. split; [reflexivity|]. exists n. now rewrite Hn. }
  split; [exact R|]. split; [exact F|].
  intros Q.
  assert (Qn : forall n, others (firstn n ws) (container q) = container q).
  { intros n. apply others_quiet.
    rewrite <- (firstn_skipn n ws) in Q. now apply Forall_app in Q. }
  split.
  - intros v q' E. destruct (R _ _ E) as [n Hn]. now rewrite Qn in Hn.
  - intros e q' E. destruct (F _ _ E) as [_ [n Hn]]. rewrite Qn in Hn.
    destruct q, q'. simpl in Hn. congruence.
Qed.

(** C6 (the code departs from it).  The claim: every [pop] either succeeds,
    removing exactly the head and returning it, or fails with [queue_empty]
    and leaves the queue as it is.  A [pop] with [block] set that finds the
    container empty does neither: whether the queue is empty at the call, or
    holds [x :: c] and is emptied by the other threads' pops before the
    first wake-up, the loop is left and [front()] and [pop()] are run on the
    empty container, so the call hands back no queued element and no
    [queue_empty], and what it leaves of the queue is undefined. *)
Theorem pop_blocking_neither_removes_head_nor_fails timeout ws (x : T) c :
  pop true timeout ws (LockingQueue []) = Undefined
  /\ pop true timeout
         (Wakeup true (repeat OtherPop (S (length c))) :: ws)
         (LockingQueue (x :: c))
     = Undefined.
Proof.
  unfold pop, pop_guard. cbn [container]. split.
  - now rewrite wait_loop_nil.
  - cbn [wait_loop StdQueue.empty negb in_time meanwhile].
    rewrite perform_pops. cbn [skipn]. rewrite skipn_all.
    destruct (timeout >? 0)%Z; now rewrite wait_loop_nil.
Qed.

(** C7.  A queue constructed as a copy of [[a; b; c]] has size 3, is not
    empty, and its first non-blocking [pop] returns [a]. *)
Theorem seed_from_container (a b c : T) :
  let q := locking_queue_copy [a; b; c] in
  size q = Returned 3 q
  /\ empty q = Returned false q
  /\ pop_default q = Returned a (LockingQueue [b; c]).
Proof. repeat split. Qed.

(** C8.  Empty after drain: after pushing [k] elements into a new queue and
    popping [k] elements, [empty()] returns [true] and [size()] returns 0. *)
Theorem empty_after_drain vs :
  bind (push_all vs) (fun _ =>
  bind (pop_many (length vs)) (fun _ => observe)) locking_queue_new
  = Returned (true, 0) locking_queue_new.
Proof.
  unfold bind at 1. rewrite push_all_appends. simpl.
  unfold bind at 1. rewrite <- (app_nil_r vs) at 2.
  rewrite pop_many_prefix. reflexivity.
Qed.

(** C9.  [push], [empty] and [size] return normally from every state:
    [push] leaves the queue with the value appended at its tail, [empty]
    and [size] leave it as it is.  None of them throws [queue_empty], runs
    into undefined behaviour or waits. *)
Theorem push_empty_size_total q (v : T) :
  push v q = Returned tt (LockingQueue (container q ++ [v]))
  /\ empty q = Returned (StdQueue.empty (container q)) q
  /\ size q = Returned (length (container q)) q.
Proof. repeat split. Qed.

(** C10.  In every state [empty()] returns [true] exactly when [size()]
    returns 0, and both leave the queue as it is. *)
Theorem empty_iff_size_zero q :
  exists (b : bool) (n : nat),
    empty q = Returned b q
    /\ size q = Returned n q
    /\ (b = true <-> n = 0).
Proof.
  exists (StdQueue.empty (container q)), (StdQueue.size (container q)).
  repeat split; apply empty_size.
Qed.
End Claims.

(** ** The claims at concrete queues of integers *)

Lemma pop_single_removal_witness :
  (exists n : nat, others (firstn n []) [1; 2]%Z = [1; 2]%Z)
  /\ container (LockingQueue [1; 2]%Z) = 1%Z :: container (LockingQueue [2%Z])
  /\ LockingQueue [7%Z] = LockingQueue [7%Z].
Proof.
  split; [|split].
  - apply (proj1 (pop_single_removal false 0 [] (LockingQueue [1; 2]%Z))
             1%Z (LockingQueue [2%Z])).
    reflexivity.
  - apply (proj1 (proj2 (proj2
             (pop_single_removal false 0 [] (LockingQueue [1; 2]%Z)))
             (Forall_nil _)) 1%Z (LockingQueue [2%Z])).
    reflexivity.
  - refine (proj2 (proj2 (proj2
             (pop_single_removal true 3 [Wakeup false []]
                (LockingQueue [7%Z]))) _)
             queue_empty (LockingQueue [7%Z]) _).
    + repeat constructor.
    + reflexivity.
Defined.

(** ** The unit tests of [test/tests.cpp], run on the model *)

(** [basic_functionality] *)
Example test_basic_functionality :
  let lq := @locking_queue_new Z in
  observe lq = Returned (true, 0) lq
  /\ bind (push 5%Z) (fun _ => observe) lq
     = Returned (false, 1) (LockingQueue [5%Z])
  /\ bind (push 5%Z) (fun _ =>
     bind pop_default (fun r =>
     bind observe (fun o => ret (r, o)))) lq
     = Returned (5%Z, (true, 0)) lq.
Proof. repeat split. Qed.

(** [copy_constructor] *)
Example test_copy_constructor :
  let q := StdQueue.push 5%Z [] in
  let lq3 := locking_queue_copy q in
  observe lq3 = Returned (false, 1) lq3
  /\ pop_default lq3 = Returned 5%Z locking_queue_new.
Proof. repeat split. Qed.

(** [pop_non_blocking] *)
Example test_pop_non_blocking :
  let lq := @locking_queue_new Z in
  pop false 0 [] lq = Thrown queue_empty lq
  /\ pop false 5 [] lq = Thrown queue_empty lq.
Proof. repeat split. Qed.


(** * Further properties of the code *)

Section WaitLoop.
Variable T : Type.

Implicit Types (c : container_type T) (q : locking_queue T).
Implicit Types (ws : list (wakeup T)) (w : wakeup T) (timeout : Z).

Lemma gtb_0_false timeout : (timeout <= 0)%Z -> (timeout >? 0)%Z = false.
Proof. intros H. rewrite Z.gtb_ltb. apply Z.ltb_ge. exact H. Qed.

Lemma gtb_0_true timeout : (0 < timeout)%Z -> (timeout >? 0)%Z = true.
Proof. intros H. rewrite Z.gtb_ltb. apply Z.ltb_lt. exact H. Qed.

Lemma no_expiry_tail timeout w ws :
  no_expiry timeout (w :: ws) -> no_expiry timeout ws.
Proof.
  intros [H|H]; [left; exact H|right].
  simpl in H. now apply andb_prop in H.
Qed.

Lemma never_drained_head ws c : never_drained ws c -> c <> [].
Proof. intros H. exact (H 0). Qed.

Lemma never_drained_tail w ws c :
  never_drained (w :: ws) c ->
  never_drained ws (fold_left (@perform T) (meanwhile w) c).
Proof. intros H n. exact (H (S n)). Qed.

Lemma wait_loop_step timeout w ws (x : T) c :
  wait_loop timeout (w :: ws) (x :: c)
  = if ((timeout >? 0)%Z && negb (in_time w))%bool
    then Throw (fold_left (@perform T) (meanwhile w) (x :: c))
    else wait_loop timeout ws (fold_left (@perform T) (meanwhile w) (x :: c)).
Proof.
  cbn [wait_loop StdQueue.empty negb].
  destruct (timeout >? 0)%Z, (in_time w); reflexivity.
Qed.

Lemma wait_loop_step_no_expiry timeout w ws (x : T) c :
  no_expiry timeout (w :: ws) ->
  wait_loop timeout (w :: ws) (x :: c)
  = wait_loop timeout ws (fold_left (@perform T) (meanwhile w) (x :: c)).
Proof.
  intros H. rewrite wait_loop_step. destruct H as [H|H].
  - now rewrite gtb_0_false.
  - simpl in H. apply andb_prop in H as [-> _].
    now rewrite andb_false_r.
Qed.

Lemma wait_loop_stays timeout ws c :
  no_expiry timeout ws -> never_drained ws c ->
  wait_loop timeout ws c = Waiting (others ws c).
Proof.
  revert c. induction ws as [|w ws IH]; intros c E N.
  - destruct c as [|x c]; [now apply never_drained_head in N|].
    simpl. destruct (timeout >? 0)%Z; reflexivity.
  - destruct c as [|x c]; [now apply never_drained_head in N|].
    rewrite wait_loop_step_no_expiry by exact E.
    rewrite others_cons.
    apply IH; [eapply no_expiry_tail; exact E|apply never_drained_tail, N].
Qed.

Lemma wait_loop_drained timeout ws c :
  no_expiry timeout ws -> (exists n, others (firstn n ws) c = []) ->
  wait_loop timeout ws c = Proceed [].
Proof.
  revert c. induction ws as [|w ws IH]; intros c E [n D].
  - rewrite firstn_nil in D. simpl in D. subst c. reflexivity.
  - destruct c as [|x c]; [reflexivity|].
    destruct n as [|n]; [discriminate|].
    rewrite wait_loop_step_no_expiry by exact E.
    apply IH; [eapply no_expiry_tail; exact E|].
    exists n. exact D.
Qed.

Lemma wait_loop_expired timeout ws1 w ws2 c :
  (0 < timeout)%Z -> forallb (@in_time T) ws1 = true -> in_time w = false ->
  never_drained ws1 c ->
  wait_loop timeout (ws1 ++ w :: ws2) c = Throw (others (ws1 ++ [w]) c).
Proof.
  intros Ht. revert c. induction ws1 as [|w1 ws1 IH]; intros c I1 Iw N.
  - destruct c as [|x c]; [now apply never_drained_head in N|].
    simpl app. rewrite wait_loop_step, Iw.
    now rewrite gtb_0_true.
  - destruct c as [|x c]; [now apply never_drained_head in N|].
    simpl in I1. apply andb_prop in I1 as [Iw1 I1].
    simpl app. rewrite wait_loop_step, Iw1, andb_false_r.
    rewrite others_cons.
    apply IH; [exact I1|exact Iw|apply never_drained_tail, N].
Qed.

Lemma wait_loop_throw_timed timeout ws c c' :
  wait_loop timeout ws c = Throw c' -> (0 < timeout)%Z.
Proof.
  revert c. induction ws as [|w ws IH]; intros [|x c]; try discriminate.
  - simpl. destruct (timeout >? 0)%Z; discriminate.
  - rewrite wait_loop_step.
    destruct (timeout >? 0)%Z eqn:Ht; simpl.
    + intros _. rewrite Z.gtb_ltb in Ht. now apply Z.ltb_lt.
    + apply IH.
Qed.

Lemma perform_pushes (acts : list (action T)) c :
  forallb (@is_push T) acts = true ->
  fold_left (@perform T) acts c
  = c ++ flat_map (fun a => match a with OtherPush x => [x] | OtherPop => [] end)
                  acts.
Proof.
  revert c. induction acts as [|a acts IH]; intros c H; simpl.
  - now rewrite app_nil_r.
  - simpl in H. apply andb_prop in H as [Ha H].
    destruct a as [x|]; [|discriminate].
    rewrite IH by exact H. simpl. unfold StdQueue.push.
    now rewrite <- app_assoc.
Qed.

Lemma others_pushes ws c :
  only_pushes ws = true -> others ws c = c ++ pushed_by ws.
Proof.
  revert c. induction ws as [|w ws IH]; intros c H.
  - simpl. now rewrite app_nil_r.
  - unfold only_pushes in H. simpl in H. apply andb_prop in H as [Hw H].
    rewrite others_cons, perform_pushes by exact Hw.
    rewrite IH by exact H. simpl. now rewrite <- app_assoc.
Qed.

Lemma only_pushes_firstn n ws :
  only_pushes ws = true -> only_pushes (firstn n ws) = true.
Proof.
  unfold only_pushes. revert n.
  induction ws as [|w ws IH]; intros [|n] H; simpl; auto.
  simpl in H. apply andb_prop in H as [-> H]. simpl. now apply IH.
Qed.

Lemma only_pushes_never_drained ws (x : T) c :
  only_pushes ws = true -> never_drained ws (x :: c).
Proof.
  intros H n. rewrite others_pushes by now apply only_pushes_firstn.
  discriminate.
Qed.
End WaitLoop.

Section Sequences.
Variable T : Type.

Implicit Types (c : container_type T) (q : locking_queue T).
Implicit Types (cs : list (call T)) (vs outs : list T).

(** How a straight-line sequence of [push] and [pop()] calls ends: either
    every call returns, and then the popped values followed by what is left
    in the queue are the initial contents followed by the pushed values; or
    a [pop()] throws [queue_empty], on an empty queue. *)
Lemma run_cases cs q :
  (exists outs q',
      run cs q = Returned outs q'
      /\ outs ++ container q' = container q ++ pushed cs)
  \/ (exists q', run cs q = Thrown queue_empty q' /\ container q' = []).
Proof.
  revert q. induction cs as [|[v|] cs IH]; intros [c].
  - left. exists [], (LockingQueue c). split; [reflexivity|].
    simpl. now rewrite app_nil_r.
  - cbn [run pushed]. unfold bind, push. cbn [container].
    destruct (IH (LockingQueue (StdQueue.push v c)))
      as [(outs & q' & E & H)|(q' & E & H)].
    + left. exists outs, q'. split; [exact E|].
      rewrite H. cbn [container]. unfold StdQueue.push.
      now rewrite <- app_assoc.
    + right. exists q'. split; assumption.
  - cbn [run pushed]. destruct c as [|x c].
    + right. exists (LockingQueue []). split; reflexivity.
    + unfold bind at 1. unfold pop_default, pop. cbn.
      destruct (IH (LockingQueue c)) as [(outs & q' & E & H)|(q' & E & H)].
      * left. exists (x :: outs), q'. unfold bind. rewrite E.
        split; [reflexivity|]. cbn in H |- *. now rewrite H.
      * right. exists q'. unfold bind. rewrite E. split; [reflexivity|exact H].
Qed.
End Sequences.

(** * Further theorems *)

Section Further.
Variable T : Type.

Implicit Types (c other : container_type T) (q : locking_queue T).
Implicit Types (ws : list (wakeup T)) (w : wakeup T) (timeout : Z).
Implicit Types (cs : list (call T)) (vs outs : list T).

(** X1.  A [pop] with [block] set never returns an element: it runs into the
    undefined removal from an empty container, or throws [queue_empty], which
    it does only when [timeout] is positive, or stays in the wait. *)
Theorem pop_blocking_outcomes timeout ws q :
  pop true timeout ws q = Undefined
  \/ (exists q', pop true timeout ws q = Thrown queue_empty q'
                 /\ (0 < timeout)%Z)
  \/ (exists q', pop true timeout ws q = Suspended q').
Proof.
  unfold pop, pop_guard.
  destruct (wait_loop timeout ws (container q)) as [c'|c'|c'] eqn:E.
  - left. apply wait_loop_proceed in E. now subst c'.
  - right; left. exists (LockingQueue c'). split; [reflexivity|].
    eapply wait_loop_throw_timed; exact E.
  - right; right. now exists (LockingQueue c').
Qed.

(** X2.  A blocking [pop] none of whose waits reports a time-out: if the
    other threads leave the container empty at some wake-up (or it is empty
    at the call), the call goes on to the undefined removal; if the container
    is non-empty at every wake-up, the call consumes every wake-up and is
    still waiting, the queue being what the other threads made of it. *)
Theorem pop_blocking_without_expiry timeout ws q :
  no_expiry timeout ws ->
  ((exists n, others (firstn n ws) (container q) = []) ->
     pop true timeout ws q = Undefined)
  /\ (never_drained ws (container q) ->
     pop true timeout ws q = Suspended (LockingQueue (others ws (container q)))).
Proof.
  intros E. unfold pop, pop_guard. split; intros H.
  - now rewrite wait_loop_drained.
  - now rewrite wait_loop_stays.
Qed.

(** X3.  Pushes of other threads do not release a blocked consumer: a
    blocking [pop] called on a non-empty queue, with no wait reporting a
    time-out and the other threads only pushing, is still waiting after
    every wake-up, with all the pushed values queued behind the initial
    ones. *)
Theorem pop_blocking_pushes_do_not_release timeout ws (x : T) c :
  no_expiry timeout ws ->
  only_pushes ws = true ->
  pop true timeout ws (LockingQueue (x :: c))
  = Suspended (LockingQueue (x :: c ++ pushed_by ws)).
Proof.
  intros E P. unfold pop, pop_guard. cbn [container].
  rewrite wait_loop_stays;
    [|exact E|now apply only_pushes_never_drained].
  now rewrite others_pushes.
Qed.

(** X4.  With a positive [timeout], a blocking [pop] whose queue is non-empty
    at the call and at every earlier wake-up throws [queue_empty] at the first
    [timed_wait] that reports a time-out, whatever the queue holds then; the
    queue is left as the other threads made it up to that wake-up, and later
    wake-ups are not consumed. *)
Theorem pop_blocking_throws_at_first_expiry timeout ws1 w ws2 q :
  (0 < timeout)%Z ->
  forallb (@in_time T) ws1 = true ->
  in_time w = false ->
  never_drained ws1 (container q) ->
  pop true timeout (ws1 ++ w :: ws2) q
  = Thrown queue_empty (LockingQueue (others (ws1 ++ [w]) (container q))).
Proof.
  intros Ht I1 Iw N. unfold pop, pop_guard.
  now rewrite wait_loop_expired.
Qed.

(** X5.  Straight-line use of [push] and the non-blocking [pop()] never runs
    into undefined behaviour and never waits, and it neither loses nor
    duplicates nor reorders elements: either all calls return, and the popped
    values followed by the remaining queue are the initial queue followed by
    the pushed values, or a [pop()] throws [queue_empty] with the queue
    empty. *)
Theorem run_conserves_elements cs q :
  (exists outs q',
      run cs q = Returned outs q'
      /\ outs ++ container q' = container q ++ pushed cs)
  \/ (exists q', run cs q = Thrown queue_empty q' /\ container q' = []).
Proof. apply run_cases. Qed.

(** X6.  Size accounting: after a sequence of [push] and [pop()] calls that
    all return, [size()] returns the initial size plus the number of pushes
    minus the number of pops. *)
Theorem run_size_balance cs q outs q' :
  run cs q = Returned outs q' ->
  size q'
  = Returned (length (container q) + length (pushed cs) - length outs) q'.
Proof.
  intros E. destruct (run_cases cs q) as [(o & p & E' & H)|(p & E' & _)];
    [|congruence].
  rewrite E in E'. injection E' as <- <-.
  unfold size, StdQueue.size. f_equal.
  apply (f_equal (@length T)) in H. rewrite !length_app in H. lia.
Qed.

(** X7.  [k] calls of [pop()]: when the queue holds at least [k] elements
    they return its first [k] elements in order and leave the rest; when it
    holds fewer, the sequence ends with [queue_empty] and the queue empty. *)
Theorem pop_many_firstn (k : nat) c :
  pop_many k (LockingQueue c)
  = if k <=? length c
    then Returned (firstn k c) (LockingQueue (skipn k c))
    else Thrown queue_empty locking_queue_new.
Proof.
  revert c. induction k as [|k IH]; intros c; [reflexivity|].
  destruct c as [|x c]; [reflexivity|].
  cbn [pop_many]. unfold bind at 1. unfold pop_default, pop. cbn.
  unfold bind. rewrite IH. destruct (k <=? length c); reflexivity.
Qed.

(** X8.  A queue seeded from a container delivers the seeded elements first,
    in their order, and then the pushed ones: after constructing the queue
    from [other] and pushing [vs], [length other + length vs] calls of
    [pop()] return [other ++ vs] and leave the queue empty. *)
Theorem seeded_fifo_order other vs :
  bind (push_all vs) (fun _ => pop_many (length other + length vs))
       (locking_queue_copy other)
  = Returned (other ++ vs) locking_queue_new.
Proof.
  unfold bind. rewrite push_all_appends. cbn [container locking_queue_copy].
  rewrite <- length_app.
  rewrite <- (app_nil_r (other ++ vs)) at 2. apply pop_many_prefix.
Qed.
End Further.

(** ** The further theorems at concrete queues of integers *)

Lemma pop_blocking_without_expiry_witness :
  pop true 0 [Wakeup true [OtherPop]] (LockingQueue [5%Z]) = Undefined
  /\ pop true 0 [Wakeup true [OtherPush 7%Z]] (LockingQueue [5%Z])
     = Suspended (LockingQueue [5%Z; 7%Z]).
Proof.
  split.
  - apply (pop_blocking_without_expiry (timeout := 0)
             (ws := [Wakeup true [OtherPop]]) (LockingQueue [5%Z])).
    + left. lia.
    + exists 1. reflexivity.
  - apply (pop_blocking_without_expiry (timeout := 0)
             (ws := [Wakeup true [OtherPush 7%Z]]) (LockingQueue [5%Z])).
    + left. lia.
    + intros [|[|n]]; discriminate.
Defined.

Lemma pop_blocking_pushes_do_not_release_witness :
  pop true (-1) [Wakeup false [OtherPush 7%Z]; Wakeup true [OtherPush 8%Z]]
      (LockingQueue [5%Z])
  = Suspended (LockingQueue [5%Z; 7%Z; 8%Z]).
Proof.
  apply (pop_blocking_pushes_do_not_release (timeout := -1)
           (ws := [Wakeup false [OtherPush 7%Z]; Wakeup true [OtherPush 8%Z]])
           5%Z []).
  - left. lia.
  - reflexivity.
Defined.

Lemma pop_blocking_throws_at_first_expiry_witness :
  pop true 2
      ([Wakeup true [OtherPush 7%Z]] ++ Wakeup false []
         :: [Wakeup true [OtherPop]])
      (LockingQueue [5%Z])
  = Thrown queue_empty (LockingQueue [5%Z; 7%Z]).
Proof.
  apply (pop_blocking_throws_at_first_expiry (timeout := 2)
           (ws1 := [Wakeup true [OtherPush 7%Z]]) (Wakeup false [])
           [Wakeup true [OtherPop]] (LockingQueue [5%Z])).
  - lia.
  - reflexivity.
  - reflexivity.
  - intros [|[|n]]; discriminate.
Defined.

Lemma run_size_balance_witness :
  size (LockingQueue [1%Z; 2%Z]) = Returned 2 (LockingQueue [1%Z; 2%Z]).
Proof.
  apply (run_size_balance [CallPush 1%Z; CallPush 2%Z; CallPop]
           (LockingQueue [9%Z]) (outs := [9%Z])).
  reflexivity.
Defined.
